(** * Tracer diffusion flux of the Lecoanet Kelvin-Helmholtz setup

    Shallow embedding of [src/tracer_rhs_flux.c] ([RHS_TRACER_Flux] and
    [GetTracerGradient]) for the configuration of [src/definitions.h]:
    [GEOMETRY = CARTESIAN], [DIMENSIONS = 2], [NTRACER = 1].

    Conventions of the model:
    - a C [double] is modelled as an exact rational [Q]; the curvilinear
      branches of [GetTracerGradient] are compiled out for CARTESIAN and are
      not modelled;
    - a C array is a function from its (integer) index; an array of arrays
      is a curried function, so [Field[k][j][i]] is [Field k j i];
    - a store [a[i] = v] is [upd a i v]; [a[i][c] = v] is [set2 a i c v];
    - the globals [g_dir], [g_i], [g_j], [g_k] of the host are the record
      [Globals]; [g_inputParam] is a function from parameter labels to [Q];
    - the state the call can touch (inputs, output array and the
      [static] gradient buffer) is the record [Mem]; the content returned by
      [ARRAY_3D] on the first call (uninitialised memory) is an explicit
      argument [fresh]. *)

From Stdlib Require Import ZArith QArith Qfield Qminmax Lia Lqa Bool.

Open Scope Z_scope.

(** ** Configuration ([definitions.h]) *)

Definition DIMENSIONS : Z := 2.
Definition NTRACER : Z := 1.

(** Direction labels of the host framework. *)
Definition IDIR : Z := 0.
Definition JDIR : Z := 1.
Definition KDIR : Z := 2.

(** Index of the density among the primitive variables. *)
Definition RHO : Z := 0.

(** User-defined parameter labels. *)
Definition DEL_RHO_BY_RHO0 : Z := 0.
Definition REYNOLDS : Z := 1.
Definition AMP : Z := 2.
Definition Y1 : Z := 3.
Definition Y2 : Z := 4.
Definition SIGMA : Z := 5.
Definition TANH_A : Z := 6.
Definition U_FLOW : Z := 7.
Definition RHO0 : Z := 8.
Definition PRS0 : Z := 9.
Definition LENGTH : Z := 10.

(** The table [g_inputParam]. *)
Definition Params := Z -> Q.

Definition UNIT_LENGTH (g_inputParam : Params) : Q := g_inputParam LENGTH.
Definition UNIT_DENSITY (g_inputParam : Params) : Q := g_inputParam RHO0.
Definition UNIT_VELOCITY (g_inputParam : Params) : Q := g_inputParam U_FLOW.

(** ** Arrays *)

Definition upd {A} (a : Z -> A) (i : Z) (v : A) : Z -> A :=
  fun n => if Z.eqb n i then v else a n.

(** [a[i][c] = v] *)
Definition set2 {A} (a : Z -> Z -> A) (i c : Z) (v : A) : Z -> Z -> A :=
  upd a i (upd (a i) c v).

(** [for (i = b; n iterations; i++) s = body(i, s)] *)
Fixpoint for_range {S} (n : nat) (i : Z) (body : Z -> S -> S) (s : S) : S :=
  match n with
  | O => s
  | S n' => for_range n' (i + 1) body (body i s)
  end.

(** [for (i = beg; i <= end; i++)] *)
Definition for_incl {S} (beg end_ : Z) (body : Z -> S -> S) (s : S) : S :=
  for_range (Z.to_nat (end_ - beg + 1)) beg body s.

(** ** Host data *)

(** The part of the host [Grid] structure read by the kernel, indexed by
    direction then cell: [dx], [inv_dx] (inverse cell widths),
    [inv_dxi] (inverse distances between neighbouring cell centres),
    [x] (cell centres) and [xr] (right interfaces). *)
Record Grid := mkGrid {
  dx : Z -> Z -> Q;
  inv_dx : Z -> Z -> Q;
  inv_dxi : Z -> Z -> Q;
  x : Z -> Z -> Q;
  xr : Z -> Z -> Q }.

(** Host globals. *)
Record Globals := mkGlobals {
  g_dir : Z;
  g_i : Z;
  g_j : Z;
  g_k : Z }.

(** A 3D scalar field [Field[k][j][i]]. *)
Definition Field3 := Z -> Z -> Z -> Q.
(** A gradient array [gradField[i][c]]. *)
Definition GradRow := Z -> Z -> Q.
(** The static buffer [gradTRC[trc][i][c]]. *)
Definition GradBuf := Z -> Z -> Z -> Q.

(** ** [GetTracerGradient] (CARTESIAN) *)

(** [DIM_EXPAND(a, b, c)]: [b] is kept when [DIMENSIONS >= 2], [c] when
    [DIMENSIONS == 3]. *)
Definition dim_expand {S} (a b c : S -> S) (s : S) : S :=
  let s := a s in
  let s := if 2 <=? DIMENSIONS then b s else s in
  if 3 <=? DIMENSIONS then c s else s.

Definition GetTracerGradient (glob : Globals) (Field : Field3)
    (gradField : GradRow) (beg end_ : Z) (grid : Grid) : GradRow :=
  let inv_dx_ := inv_dx grid IDIR in let inv_dxi_ := inv_dxi grid IDIR in
  let inv_dy := inv_dx grid JDIR in let inv_dyi := inv_dxi grid JDIR in
  let inv_dz := inv_dx grid KDIR in let inv_dzi := inv_dxi grid KDIR in
  let i := g_i glob in
  let j := g_j glob in
  let k := g_k glob in
  if Z.eqb (g_dir glob) IDIR then
    let dx2 := inv_dy j in
    let dx3 := inv_dz k in
    for_incl beg end_ (fun i gradField =>
      let dl1 := inv_dxi_ i in
      let dl2 := dx2 in
      let dl3 := dx3 in
      dim_expand
        (fun g => set2 g i 0 ((Field k j (i+1)%Z - Field k j i) * dl1)%Q)
        (fun g => set2 g i 1 (0.25 * (Field k (j+1)%Z i + Field k (j+1)%Z (i+1)%Z
                                      - Field k (j-1)%Z i - Field k (j-1)%Z (i+1)%Z)
                              * dl2)%Q)
        (fun g => set2 g i 2 (0.25 * (Field (k+1)%Z j i + Field (k+1)%Z j (i+1)%Z
                                      - Field (k-1)%Z j i - Field (k-1)%Z j (i+1)%Z)
                              * dl3)%Q)
        gradField) gradField
  else if Z.eqb (g_dir glob) JDIR then
    let dx1 := inv_dx_ i in
    let dx3 := inv_dz k in
    for_incl beg end_ (fun j gradField =>
      let dl1 := dx1 in
      let dl2 := inv_dyi j in
      let dl3 := dx3 in
      dim_expand
        (fun g => set2 g j 0 (0.25 * (Field k j (i+1)%Z + Field k (j+1)%Z (i+1)%Z
                                      - Field k j (i-1)%Z - Field k (j+1)%Z (i-1)%Z)
                              * dl1)%Q)
        (fun g => set2 g j 1 ((Field k (j+1)%Z i - Field k j i) * dl2)%Q)
        (fun g => set2 g j 2 (0.25 * (Field (k+1)%Z j i + Field (k+1)%Z (j+1)%Z i
                                      - Field (k-1)%Z j i - Field (k-1)%Z (j+1)%Z i)
                              * dl3)%Q)
        gradField) gradField
  else if Z.eqb (g_dir glob) KDIR then
    let dl1 := inv_dx_ i in
    let dl2 := inv_dy j in
    for_incl beg end_ (fun k gradField =>
      let dl3 := inv_dzi k in
      let g := set2 gradField k 0
                 (0.25 * (Field k j (i+1)%Z + Field (k+1)%Z j (i+1)%Z
                          - Field k j (i-1)%Z - Field (k+1)%Z j (i-1)%Z) * dl1)%Q in
      let g := set2 g k 1
                 (0.25 * (Field k (j+1)%Z i + Field (k+1)%Z (j+1)%Z i
                          - Field k (j-1)%Z i - Field (k+1)%Z (j-1)%Z i) * dl2)%Q in
      set2 g k 2 ((Field (k+1)%Z j i - Field k j i) * dl3)%Q) gradField
  else gradField.

(** ** [RHS_TRACER_Flux] *)

(** The state the call reads or writes. [gradTRC] is the [static] buffer:
    [None] before the first call. *)
Record Mem := mkMem {
  TracerField : Z -> Field3;
  vn : Z -> Z -> Q;
  grid : Grid;
  gradTRC : option GradBuf;
  tracer_flux : Z -> Z -> Q }.

(** Diffusivity (lines 47-50). *)
Definition del_u (g_inputParam : Params) : Q := (2 * g_inputParam U_FLOW)%Q.
Definition chi (g_inputParam : Params) : Q :=
  (g_inputParam LENGTH * del_u g_inputParam / g_inputParam REYNOLDS)%Q.
Definition nu_dye (g_inputParam : Params) : Q :=
  (chi g_inputParam / (UNIT_LENGTH g_inputParam * UNIT_VELOCITY g_inputParam))%Q.

(** [vi[nv]], the interface value of line 71. *)
Definition interface_value (vc : Z -> Z -> Q) (dxd : Z -> Q) (i nv : Z) : Q :=
  ((vc i nv * dxd i + vc (i+1)%Z nv * dxd (i+1)%Z) / (dxd i + dxd (i+1)%Z))%Q.

(** Buffer after the [gradTRC == NULL] test of line 57. *)
Definition alloc_grad (m : Mem) (fresh : GradBuf) : GradBuf :=
  match gradTRC m with Some g => g | None => fresh end.

Definition RHS_TRACER_Flux (glob : Globals) (g_inputParam : Params)
    (beg end_ : Z) (fresh : GradBuf) (m : Mem) : Mem :=
  let vc := vn m in
  let nu := nu_dye g_inputParam in
  let dxd := dx (grid m) (g_dir glob) in
  let '(g, fl) :=
    for_range (Z.to_nat NTRACER) 0 (fun trc '(gradTRC, tracer_flux) =>
      let gradTRC :=
        upd gradTRC trc
          (GetTracerGradient glob (TracerField m trc) (gradTRC trc) beg end_ (grid m)) in
      let tracer_flux :=
        for_incl beg end_ (fun i tracer_flux =>
          let vi := interface_value vc dxd i in
          let Flux := (vi RHO * nu * gradTRC trc i (g_dir glob))%Q in
          set2 tracer_flux i trc Flux) tracer_flux in
      (gradTRC, tracer_flux))
      (alloc_grad m fresh, tracer_flux m) in
  {| TracerField := TracerField m; vn := vn m; grid := grid m;
     gradTRC := Some g; tracer_flux := fl |}.

(** ** Loop and store lemmas *)

(** Case analysis on the integer comparisons of the goal. *)
Ltac zcase :=
  repeat match goal with
  | |- context [Z.eqb ?x ?y] => case (Z.eqb_spec x y); intro
  | |- context [Z.ltb ?x ?y] => case (Z.ltb_spec x y); intro
  | |- context [Z.leb ?x ?y] => case (Z.leb_spec x y); intro
  end; simpl; try lia; try reflexivity.

Lemma upd_same {A} (a : Z -> A) i v : upd a i v i = v.
Proof. unfold upd. now rewrite Z.eqb_refl. Qed.

Lemma upd_other {A} (a : Z -> A) i v n : n <> i -> upd a i v n = a n.
Proof. intros H. unfold upd. now rewrite (proj2 (Z.eqb_neq n i) H). Qed.

(** A loop whose [i]-th step only changes index [i], from the old value at
    [i], leaves every index outside the range alone and sets each index of
    the range as the step does on the initial state. *)
Lemma for_range_local {A} (n : nat) (b : Z) (body : Z -> (Z -> A) -> Z -> A) s0
  (Hloc : forall i s s', s i = s' i -> body i s i = body i s' i)
  (Hfr : forall i s y, y <> i -> body i s y = s y) :
  forall y, for_range n b body s0 y =
    if (b <=? y) && (y <? b + Z.of_nat n) then body y s0 y else s0 y.
Proof.
  revert b s0. induction n as [|n IH]; intros b s0 y; cbn [for_range].
  - zcase.
  - rewrite IH, Nat2Z.inj_succ.
    destruct (Z.eq_dec y b) as [->|Hne].
    + zcase.
    + rewrite (Hfr b s0 y Hne). zcase.
      apply Hloc. apply Hfr. exact Hne.
Qed.

Lemma for_incl_local {A} (beg end_ : Z) (body : Z -> (Z -> A) -> Z -> A) s0
  (Hloc : forall i s s', s i = s' i -> body i s i = body i s' i)
  (Hfr : forall i s y, y <> i -> body i s y = s y) :
  forall y, for_incl beg end_ body s0 y =
    if (beg <=? y) && (y <=? end_) then body y s0 y else s0 y.
Proof.
  intros y. unfold for_incl. rewrite for_range_local by assumption.
  destruct (Z_le_gt_dec beg (end_ + 1)).
  - rewrite Z2Nat.id by lia. zcase.
  - replace (Z.to_nat (end_ - beg + 1)) with O by lia. zcase.
Qed.

(** With [DIMENSIONS = 2], [DIM_EXPAND(a, b, c)] is [a b]. *)
Lemma dim_expand_2 {S} (a b c : S -> S) s : dim_expand a b c s = b (a s).
Proof. reflexivity. Qed.

Lemma set2_at {A} (a : Z -> Z -> A) i c v : set2 a i c v i = upd (a i) c v.
Proof. unfold set2. apply upd_same. Qed.

Lemma set2_other {A} (a : Z -> Z -> A) i c v n : n <> i -> set2 a i c v n = a n.
Proof. unfold set2. apply upd_other. Qed.

Ltac row_local :=
  intros;
  repeat rewrite dim_expand_2;
  repeat (rewrite set2_at || rewrite set2_other by assumption);
  try congruence.

(** Every index of [gradField] outside [[beg, end]] is left alone. *)
Lemma GetTracerGradient_frame glob Field gradField beg end_ grid n :
  ~ (beg <= n <= end_) ->
  GetTracerGradient glob Field gradField beg end_ grid n = gradField n.
Proof.
  intros Hn. unfold GetTracerGradient.
  destruct (g_dir glob =? IDIR); [|destruct (g_dir glob =? JDIR);
    [|destruct (g_dir glob =? KDIR)]];
  try reflexivity;
  rewrite for_incl_local by row_local; zcase.
Qed.

(** Sweep along [IDIR]: components 0 and 1 written, component 2 kept. *)
Lemma GetTracerGradient_IDIR glob Field gradField beg end_ grid n :
  g_dir glob = IDIR -> beg <= n <= end_ ->
  let j := g_j glob in let k := g_k glob in
  GetTracerGradient glob Field gradField beg end_ grid n =
    upd (upd (gradField n) 0
           ((Field k j (n+1)%Z - Field k j n) * inv_dxi grid IDIR n)%Q) 1
        (0.25 * (Field k (j+1)%Z n + Field k (j+1)%Z (n+1)%Z
                 - Field k (j-1)%Z n - Field k (j-1)%Z (n+1)%Z)
         * inv_dx grid JDIR j)%Q.
Proof.
  intros Hd Hn j k. unfold GetTracerGradient. rewrite Hd. cbn [Z.eqb Pos.eqb IDIR JDIR KDIR].
  rewrite for_incl_local by row_local. zcase. row_local. reflexivity.
Qed.

(** Sweep along [JDIR]: components 0 and 1 written, component 2 kept. *)
Lemma GetTracerGradient_JDIR glob Field gradField beg end_ grid n :
  g_dir glob = JDIR -> beg <= n <= end_ ->
  let i := g_i glob in let k := g_k glob in
  GetTracerGradient glob Field gradField beg end_ grid n =
    upd (upd (gradField n) 0
           (0.25 * (Field k n (i+1)%Z + Field k (n+1)%Z (i+1)%Z
                    - Field k n (i-1)%Z - Field k (n+1)%Z (i-1)%Z)
            * inv_dx grid IDIR i)%Q) 1
        ((Field k (n+1)%Z i - Field k n i) * inv_dxi grid JDIR n)%Q.
Proof.
  intros Hd Hn i k. unfold GetTracerGradient. rewrite Hd. cbn [Z.eqb Pos.eqb IDIR JDIR KDIR].
  rewrite for_incl_local by row_local. zcase. row_local. reflexivity.
Qed.

(** Sweep along [KDIR]: all three components written. *)
Lemma GetTracerGradient_KDIR glob Field gradField beg end_ grid n :
  g_dir glob = KDIR -> beg <= n <= end_ ->
  let i := g_i glob in let j := g_j glob in
  GetTracerGradient glob Field gradField beg end_ grid n =
    upd (upd (upd (gradField n) 0
           (0.25 * (Field n j (i+1)%Z + Field (n+1)%Z j (i+1)%Z
                    - Field n j (i-1)%Z - Field (n+1)%Z j (i-1)%Z)
            * inv_dx grid IDIR i)%Q) 1
           (0.25 * (Field n (j+1)%Z i + Field (n+1)%Z (j+1)%Z i
                    - Field n (j-1)%Z i - Field (n+1)%Z (j-1)%Z i)
            * inv_dx grid JDIR j)%Q) 2
        ((Field (n+1)%Z j i - Field n j i) * inv_dxi grid KDIR n)%Q.
Proof.
  intros Hd Hn i j. unfold GetTracerGradient. rewrite Hd. cbn [Z.eqb Pos.eqb IDIR JDIR KDIR].
  rewrite for_incl_local by row_local. zcase. row_local. reflexivity.
Qed.

(** The flux written at cell [i] for species [trc], from the buffer [g]
    after the gradient call (line 75). *)
Definition flux_at (glob : Globals) (g_inputParam : Params) (m : Mem)
    (g : GradBuf) (trc i : Z) : Q :=
  (interface_value (vn m) (dx (grid m) (g_dir glob)) i RHO
   * nu_dye g_inputParam * g trc i (g_dir glob))%Q.

(** The buffer after the call: row [trc] of the species loop replaced by the
    output of [GetTracerGradient]. *)
Definition grad_after (glob : Globals) (beg end_ : Z) (fresh : GradBuf)
    (m : Mem) : GradBuf :=
  upd (alloc_grad m fresh) 0
    (GetTracerGradient glob (TracerField m 0) (alloc_grad m fresh 0)
       beg end_ (grid m)).

Lemma RHS_TRACER_Flux_inputs glob g_inputParam beg end_ fresh m :
  let m' := RHS_TRACER_Flux glob g_inputParam beg end_ fresh m in
  TracerField m' = TracerField m /\ vn m' = vn m /\ grid m' = grid m.
Proof.
  unfold RHS_TRACER_Flux.
  match goal with |- context [let '(_, _) := ?p in _] => destruct p end.
  simpl. auto.
Qed.

Lemma RHS_TRACER_Flux_grad glob g_inputParam beg end_ fresh m :
  gradTRC (RHS_TRACER_Flux glob g_inputParam beg end_ fresh m)
  = Some (grad_after glob beg end_ fresh m).
Proof. reflexivity. Qed.

Lemma RHS_TRACER_Flux_flux glob g_inputParam beg end_ fresh m i trc :
  tracer_flux (RHS_TRACER_Flux glob g_inputParam beg end_ fresh m) i trc =
  if (0 <=? trc) && (trc <? NTRACER) && (beg <=? i) && (i <=? end_)
  then flux_at glob g_inputParam m (grad_after glob beg end_ fresh m) trc i
  else tracer_flux m i trc.
Proof.
  unfold RHS_TRACER_Flux. change (Z.to_nat NTRACER) with 1%nat.
  cbn [for_range fst snd tracer_flux]. unfold NTRACER.
  rewrite for_incl_local by (intros; rewrite ?set2_at, ?set2_other by assumption;
                             congruence).
  destruct (Z.leb_spec beg i), (Z.leb_spec i end_); simpl;
    rewrite ?andb_false_r; try lia; try reflexivity.
  rewrite set2_at, andb_true_r.
  destruct (Z.eqb_spec trc 0) as [->|Hne].
  - rewrite upd_same. reflexivity.
  - rewrite upd_other by exact Hne. zcase.
Qed.

(** ** Shared helpers *)

(** The sweep line through [(g_i, g_j, g_k)]: the field value at sweep
    coordinate [n], the two other coordinates fixed. *)
Definition sweep_line (glob : Globals) (Field : Field3) (n : Z) : Q :=
  if g_dir glob =? IDIR then Field (g_k glob) (g_j glob) n
  else if g_dir glob =? JDIR then Field (g_k glob) n (g_i glob)
  else Field n (g_j glob) (g_i glob).

(** The three sweep directions of the host. *)
Definition valid_dir (glob : Globals) : Prop :=
  g_dir glob = IDIR \/ g_dir glob = JDIR \/ g_dir glob = KDIR.

(** Evaluation of a component of a row built by [upd]. *)
Ltac comp :=
  unfold IDIR, JDIR, KDIR in *;
  repeat (rewrite upd_same || rewrite upd_other by discriminate).

Lemma GetTracerGradient_sweep glob Field gradField beg end_ grid n :
  valid_dir glob -> beg <= n <= end_ ->
  GetTracerGradient glob Field gradField beg end_ grid n (g_dir glob) =
  ((sweep_line glob Field (n+1)%Z - sweep_line glob Field n)
   * inv_dxi grid (g_dir glob) n)%Q.
Proof.
  intros [Hd|[Hd|Hd]] Hn.
  - rewrite (GetTracerGradient_IDIR _ _ _ _ _ _ _ Hd Hn).
    unfold sweep_line. rewrite Hd. comp. reflexivity.
  - rewrite (GetTracerGradient_JDIR _ _ _ _ _ _ _ Hd Hn).
    unfold sweep_line. rewrite Hd. comp. reflexivity.
  - rewrite (GetTracerGradient_KDIR _ _ _ _ _ _ _ Hd Hn).
    unfold sweep_line. rewrite Hd. comp. reflexivity.
Qed.

Lemma grad_after_row glob beg end_ fresh m :
  grad_after glob beg end_ fresh m 0 =
  GetTracerGradient glob (TracerField m 0) (alloc_grad m fresh 0) beg end_ (grid m).
Proof. apply upd_same. Qed.

Lemma species_zero trc : 0 <= trc < NTRACER -> trc = 0.
Proof. unfold NTRACER. lia. Qed.

(** In range, the flux is [flux_at] on the new buffer; outside it keeps its
    old value. *)
Lemma RHS_flux_in glob p beg end_ fresh m i trc :
  0 <= trc < NTRACER -> beg <= i <= end_ ->
  tracer_flux (RHS_TRACER_Flux glob p beg end_ fresh m) i trc =
  (interface_value (vn m) (dx (grid m) (g_dir glob)) i RHO * nu_dye p *
   GetTracerGradient glob (TracerField m trc) (alloc_grad m fresh trc) beg end_
     (grid m) i (g_dir glob))%Q.
Proof.
  intros Ht Hi. rewrite RHS_TRACER_Flux_flux.
  pose proof (species_zero _ Ht); subst trc.
  unfold flux_at. rewrite grad_after_row. zcase.
Qed.

Lemma RHS_flux_out glob p beg end_ fresh m i trc :
  ~ (0 <= trc < NTRACER /\ beg <= i <= end_) ->
  tracer_flux (RHS_TRACER_Flux glob p beg end_ fresh m) i trc = tracer_flux m i trc.
Proof. intros H. rewrite RHS_TRACER_Flux_flux. zcase. Qed.

(** The flux scales with the diffusivity. *)
Lemma RHS_flux_scale glob p p' beg end_ fresh m s i trc :
  (nu_dye p' == nu_dye p * s)%Q -> 0 <= trc < NTRACER -> beg <= i <= end_ ->
  (tracer_flux (RHS_TRACER_Flux glob p' beg end_ fresh m) i trc
   == tracer_flux (RHS_TRACER_Flux glob p beg end_ fresh m) i trc * s)%Q.
Proof.
  intros Hnu Ht Hi. rewrite !RHS_flux_in by assumption. rewrite Hnu. ring.
Qed.

Lemma RHS_flux_same_nu glob p p' beg end_ fresh m i trc :
  (nu_dye p' == nu_dye p)%Q ->
  (tracer_flux (RHS_TRACER_Flux glob p' beg end_ fresh m) i trc
   == tracer_flux (RHS_TRACER_Flux glob p beg end_ fresh m) i trc)%Q.
Proof.
  intros Hnu.
  destruct (Z_le_gt_dec 0 trc), (Z_lt_ge_dec trc NTRACER),
           (Z_le_gt_dec beg i), (Z_le_gt_dec i end_);
  try (rewrite !RHS_flux_out by lia; reflexivity).
  rewrite !RHS_flux_in by lia. rewrite Hnu. reflexivity.
Qed.

(** ** A concrete configuration: the end-to-end scenario of the spec *)

Definition ex_glob : Globals := mkGlobals IDIR 0 0 0.

Definition ex_params : Params := fun l =>
  if l =? REYNOLDS then 10000%Q
  else if l =? U_FLOW then 1%Q
  else if l =? LENGTH then 1%Q
  else if l =? RHO0 then 1%Q
  else if l =? PRS0 then 1%Q
  else 0%Q.

Definition ex_grid : Grid :=
  mkGrid (fun _ _ => 0.01%Q) (fun _ _ => 100%Q) (fun _ _ => 100%Q)
         (fun _ n => (0.01 * inject_Z n)%Q) (fun _ n => (0.01 * inject_Z n + 0.005)%Q).

(** Tracer 1 up to cell 0 and 2 from cell 1 on, along [IDIR]; unit density;
    sentinel 7 in the flux array. *)
Definition ex_mem : Mem :=
  mkMem (fun _ _ _ i => if i <=? 0 then 1%Q else 2%Q) (fun _ _ => 1%Q) ex_grid
        None (fun _ _ => 7%Q).

Definition ex_fresh : GradBuf := fun _ _ _ => 42%Q.

Example ex_flux_value :
  (tracer_flux (RHS_TRACER_Flux ex_glob ex_params 0 0 ex_fresh ex_mem) 0 0 == 0.02)%Q.
Proof. vm_compute. reflexivity. Qed.

Example ex_gradient_value :
  (GetTracerGradient ex_glob (TracerField ex_mem 0) (ex_fresh 0%Z) 0 0 ex_grid 0 IDIR == 100%Q)
  /\ (GetTracerGradient ex_glob (TracerField ex_mem 0) (ex_fresh 0%Z) 0 0 ex_grid 0 JDIR == 0%Q).
Proof. split; vm_compute; reflexivity. Qed.

(** ** Grid contract of the host *)

(** Cell centres increase along direction [d]. *)
Definition centres_increasing (grid : Grid) (d : Z) : Prop :=
  forall n, (x grid d n < x grid d (n+1)%Z)%Q.

(** [inv_dxi] is the inverse distance between neighbouring cell centres. *)
Definition inv_dxi_consistent (grid : Grid) (d : Z) : Prop :=
  forall n, (inv_dxi grid d n == / (x grid d (n+1)%Z - x grid d n))%Q.

(** * Claims *)

(** C1: for every species [trc] and every cell [i] of [[beg, end]], the call
    stores in [tracer_flux[i][trc]] the product of the spacing-weighted
    interface density, the diffusivity
    [nu = (LENGTH * (2 * U_FLOW) / REYNOLDS) / (UNIT_LENGTH * UNIT_VELOCITY)]
    and the sweep-direction component of the gradient that
    [GetTracerGradient] returns for cell [i]. *)
Theorem RHS_TRACER_Flux_formula glob g_inputParam beg end_ fresh m i trc :
  0 <= trc < NTRACER -> beg <= i <= end_ ->
  let dxd := dx (grid m) (g_dir glob) in
  let rho_interface :=
    ((vn m i RHO * dxd i + vn m (i+1)%Z RHO * dxd (i+1)%Z)
     / (dxd i + dxd (i+1)%Z))%Q in
  let chi := (g_inputParam LENGTH * (2 * g_inputParam U_FLOW)
              / g_inputParam REYNOLDS)%Q in
  let nu := (chi / (UNIT_LENGTH g_inputParam * UNIT_VELOCITY g_inputParam))%Q in
  let grad := GetTracerGradient glob (TracerField m trc) (alloc_grad m fresh trc)
                beg end_ (grid m) in
  tracer_flux (RHS_TRACER_Flux glob g_inputParam beg end_ fresh m) i trc
  = (rho_interface * nu * grad i (g_dir glob))%Q.
Proof.
  intros Ht Hi. cbv zeta. rewrite RHS_flux_in by assumption. reflexivity.
Qed.

Lemma RHS_TRACER_Flux_formula_witness :
  0 <= 0 < NTRACER /\ 0 <= 0 <= 0 /\
  (tracer_flux (RHS_TRACER_Flux ex_glob ex_params 0 0 ex_fresh ex_mem) 0 0
   == 0.02)%Q.
Proof.
  assert (Ht : 0 <= 0 < NTRACER) by (unfold NTRACER; lia).
  assert (Hi : 0 <= 0 <= 0) by lia.
  split; [exact Ht|]. split; [exact Hi|].
  rewrite (RHS_TRACER_Flux_formula ex_glob ex_params 0 0 ex_fresh ex_mem 0 0 Ht Hi).
  vm_compute. reflexivity.
Defined.

(** C2: for every cell [n] of [[beg, end]] and each of the three sweep
    directions, the component of the gradient along the sweep is the
    difference of the field at the forward and the current cell times the
    inverse centre spacing [inv_dxi] of that direction. *)
Theorem GetTracerGradient_along_sweep glob Field gradField beg end_ grid n :
  beg <= n <= end_ ->
  let i := g_i glob in let j := g_j glob in let k := g_k glob in
  (g_dir glob = IDIR ->
   GetTracerGradient glob Field gradField beg end_ grid n IDIR
   = ((Field k j (n+1)%Z - Field k j n) * inv_dxi grid IDIR n)%Q) /\
  (g_dir glob = JDIR ->
   GetTracerGradient glob Field gradField beg end_ grid n JDIR
   = ((Field k (n+1)%Z i - Field k n i) * inv_dxi grid JDIR n)%Q) /\
  (g_dir glob = KDIR ->
   GetTracerGradient glob Field gradField beg end_ grid n KDIR
   = ((Field (n+1)%Z j i - Field n j i) * inv_dxi grid KDIR n)%Q).
Proof.
  intros Hn i j k. split; [|split]; intros Hd.
  - rewrite (GetTracerGradient_IDIR _ _ _ _ _ _ _ Hd Hn). comp. reflexivity.
  - rewrite (GetTracerGradient_JDIR _ _ _ _ _ _ _ Hd Hn). comp. reflexivity.
  - rewrite (GetTracerGradient_KDIR _ _ _ _ _ _ _ Hd Hn). comp. reflexivity.
Qed.

Lemma GetTracerGradient_along_sweep_witness :
  0 <= 0 <= 0 /\
  GetTracerGradient ex_glob (TracerField ex_mem 0) (ex_fresh 0%Z) 0 0 ex_grid 0 IDIR
  = ((2 - 1) * 100)%Q.
Proof.
  assert (Hn : 0 <= 0 <= 0) by lia. split; [exact Hn|].
  destruct (GetTracerGradient_along_sweep ex_glob (TracerField ex_mem 0)
              (ex_fresh 0%Z) 0 0 ex_grid 0 Hn) as [H _].
  exact (H eq_refl).
Defined.

(** C3 refuted: in an [IDIR] sweep the [KDIR] (transverse) component is not
    computed: with a stale buffer holding 5 and a zero field, it still reads
    5 after the call, not the four-point difference 0. *)
Lemma GetTracerGradient_transverse_counterexample :
  let Field : Field3 := fun _ _ _ => 0%Q in
  ~ (GetTracerGradient ex_glob Field (fun _ _ => 5%Q) 0 0 ex_grid 0%Z KDIR
     == 0.25 * (Field 1%Z 0%Z 0%Z + Field 1%Z 0%Z 1%Z
                - Field (-1)%Z 0%Z 0%Z - Field (-1)%Z 0%Z 1%Z)
        * inv_dx ex_grid KDIR 0%Z)%Q.
Proof. vm_compute. discriminate. Qed.

(** C3 (as amended): with [DIMENSIONS = 2] and CARTESIAN geometry, the
    transverse components written at a cell [n] of [[beg, end]] are the
    four-point differences (current and sweep-forward cell, offsets +1 and
    -1 across) times 0.25 and the inverse transverse cell width, with no
    metric factor: the [JDIR] component in an [IDIR] sweep, the [IDIR]
    component in a [JDIR] sweep, both in the [KDIR] branch. The [KDIR]
    component is not written in [IDIR] and [JDIR] sweeps. *)
Theorem GetTracerGradient_transverse glob Field gradField beg end_ grid n :
  beg <= n <= end_ ->
  let i := g_i glob in let j := g_j glob in let k := g_k glob in
  let G := GetTracerGradient glob Field gradField beg end_ grid n in
  (g_dir glob = IDIR ->
   G JDIR = (0.25 * (Field k (j+1)%Z n + Field k (j+1)%Z (n+1)%Z
                     - Field k (j-1)%Z n - Field k (j-1)%Z (n+1)%Z)
             * inv_dx grid JDIR j)%Q /\
   G KDIR = gradField n KDIR) /\
  (g_dir glob = JDIR ->
   G IDIR = (0.25 * (Field k n (i+1)%Z + Field k (n+1)%Z (i+1)%Z
                     - Field k n (i-1)%Z - Field k (n+1)%Z (i-1)%Z)
             * inv_dx grid IDIR i)%Q /\
   G KDIR = gradField n KDIR) /\
  (g_dir glob = KDIR ->
   G IDIR = (0.25 * (Field n j (i+1)%Z + Field (n+1)%Z j (i+1)%Z
                     - Field n j (i-1)%Z - Field (n+1)%Z j (i-1)%Z)
             * inv_dx grid IDIR i)%Q /\
   G JDIR = (0.25 * (Field n (j+1)%Z i + Field (n+1)%Z (j+1)%Z i
                     - Field n (j-1)%Z i - Field (n+1)%Z (j-1)%Z i)
             * inv_dx grid JDIR j)%Q).
Proof.
  intros Hn i j k G. subst G. split; [|split]; intros Hd.
  - rewrite (GetTracerGradient_IDIR _ _ _ _ _ _ _ Hd Hn). comp. auto.
  - rewrite (GetTracerGradient_JDIR _ _ _ _ _ _ _ Hd Hn). comp. auto.
  - rewrite (GetTracerGradient_KDIR _ _ _ _ _ _ _ Hd Hn). comp. auto.
Qed.

Lemma GetTracerGradient_transverse_witness :
  0 <= 0 <= 0 /\
  GetTracerGradient ex_glob (TracerField ex_mem 0) (ex_fresh 0%Z) 0 0 ex_grid 0 KDIR
  = 42%Q.
Proof.
  assert (Hn : 0 <= 0 <= 0) by lia. split; [exact Hn|].
  destruct (GetTracerGradient_transverse ex_glob (TracerField ex_mem 0)
              (ex_fresh 0%Z) 0 0 ex_grid 0 Hn) as [H _].
  exact (proj2 (H eq_refl)).
Defined.

(** C4: for a field affine along the sweep line, [a + b * x], on a grid
    whose [inv_dxi] is the inverse distance between increasing cell
    centres, the sweep-direction component equals [b] at every cell of
    [[beg, end]], uniform spacing or not. *)
Theorem GetTracerGradient_affine glob Field gradField beg end_ grid a b :
  valid_dir glob ->
  centres_increasing grid (g_dir glob) ->
  inv_dxi_consistent grid (g_dir glob) ->
  (forall n, sweep_line glob Field n == a + b * x grid (g_dir glob) n)%Q ->
  forall n, beg <= n <= end_ ->
  (GetTracerGradient glob Field gradField beg end_ grid n (g_dir glob) == b)%Q.
Proof.
  intros Hd Hinc Hinv Haff n Hn.
  unfold centres_increasing in Hinc; unfold inv_dxi_consistent in Hinv.
  rewrite GetTracerGradient_sweep by assumption.
  rewrite !Haff, Hinv.
  assert (Hne : ~ (x grid (g_dir glob) (n+1)%Z - x grid (g_dir glob) n == 0)%Q).
  { intros E. specialize (Hinc n). rewrite Qlt_minus_iff in Hinc.
    unfold Qminus in E. rewrite E in Hinc. exact (Qlt_irrefl 0 Hinc). }
  field. exact Hne.
Qed.

(** A field affine along [IDIR] on the example grid: [3 + 5 x]. *)
Definition ex_affine : Field3 := fun _ _ i => (3 + 5 * (0.01 * inject_Z i))%Q.

Lemma ex_grid_increasing : centres_increasing ex_grid IDIR.
Proof. intros n. unfold Qlt. cbn -[Z.mul Z.add]. lia. Qed.

Lemma ex_grid_consistent : inv_dxi_consistent ex_grid IDIR.
Proof.
  intros n. cbn [x inv_dxi ex_grid]. rewrite inject_Z_plus.
  assert (E : (0.01 * (inject_Z n + inject_Z 1) - 0.01 * inject_Z n == 0.01)%Q) by ring.
  rewrite E. reflexivity.
Qed.

Lemma GetTracerGradient_affine_witness :
  valid_dir ex_glob /\ centres_increasing ex_grid IDIR /\
  inv_dxi_consistent ex_grid IDIR /\
  (forall n, sweep_line ex_glob ex_affine n == 3 + 5 * x ex_grid IDIR n)%Q /\
  (GetTracerGradient ex_glob ex_affine (ex_fresh 0%Z) 0 4 ex_grid 2%Z IDIR == 5)%Q.
Proof.
  assert (Hd : valid_dir ex_glob) by (left; reflexivity).
  assert (Haff : forall n, (sweep_line ex_glob ex_affine n
                            == 3 + 5 * x ex_grid IDIR n)%Q) by (intros n; reflexivity).
  assert (Hn : 0 <= 2 <= 4) by lia.
  split; [exact Hd|]. split; [exact ex_grid_increasing|].
  split; [exact ex_grid_consistent|]. split; [exact Haff|].
  exact (GetTracerGradient_affine ex_glob ex_affine (ex_fresh 0%Z) 0 4 ex_grid 3 5 Hd
           ex_grid_increasing ex_grid_consistent Haff 2 Hn).
Defined.

(** C5 refuted: for a uniform field the [KDIR] component of an [IDIR]
    sweep is not written, so a stale 1 in the buffer is still there, not 0. *)
Lemma uniform_gradient_counterexample :
  ~ (GetTracerGradient ex_glob (fun _ _ _ => 3%Q) (fun _ _ => 1%Q) 0 0 ex_grid
       0%Z KDIR == 0)%Q.
Proof. vm_compute. discriminate. Qed.

(** C5 (as amended): for a uniform tracer field and any of the three sweep
    directions, every component [GetTracerGradient] writes at a cell of
    [[beg, end]] is exactly zero (the [KDIR] component of an [IDIR] or
    [JDIR] sweep is not written and keeps its old value), and the flux
    written at every cell of [[beg, end]] is zero, whatever the interface
    density. *)
Theorem uniform_field_zero_flux glob g_inputParam beg end_ fresh m c :
  valid_dir glob ->
  (forall trc k j i, TracerField m trc k j i == c)%Q ->
  (forall trc gradField n, beg <= n <= end_ ->
   let G := GetTracerGradient glob (TracerField m trc) gradField beg end_ (grid m) n in
   (G IDIR == 0)%Q /\ (G JDIR == 0)%Q /\
   (G KDIR == if g_dir glob =? KDIR then 0 else gradField n KDIR)%Q) /\
  (forall i trc, 0 <= trc < NTRACER -> beg <= i <= end_ ->
   (tracer_flux (RHS_TRACER_Flux glob g_inputParam beg end_ fresh m) i trc == 0)%Q).
Proof.
  intros Hd HU. split.
  - intros trc gradField n Hn G. subst G.
    destruct Hd as [Hd|[Hd|Hd]].
    + rewrite (GetTracerGradient_IDIR _ _ _ _ _ _ _ Hd Hn). rewrite Hd. comp.
      rewrite !HU. simpl. repeat split; ring.
    + rewrite (GetTracerGradient_JDIR _ _ _ _ _ _ _ Hd Hn). rewrite Hd. comp.
      rewrite !HU. simpl. repeat split; ring.
    + rewrite (GetTracerGradient_KDIR _ _ _ _ _ _ _ Hd Hn). rewrite Hd. comp.
      rewrite !HU. simpl. repeat split; ring.
  - intros i trc Ht Hi. rewrite RHS_flux_in by assumption.
    rewrite GetTracerGradient_sweep by assumption.
    unfold sweep_line.
    destruct (g_dir glob =? IDIR); [|destruct (g_dir glob =? JDIR)];
      rewrite !HU; ring.
Qed.

Lemma uniform_field_zero_flux_witness :
  valid_dir ex_glob /\
  (forall trc k j i,
     TracerField (mkMem (fun _ _ _ _ => 3%Q) (fun _ _ => 1%Q) ex_grid None
                        (fun _ _ => 7%Q)) trc k j i == 3)%Q /\
  (tracer_flux (RHS_TRACER_Flux ex_glob ex_params 0 0 ex_fresh
                  (mkMem (fun _ _ _ _ => 3%Q) (fun _ _ => 1%Q) ex_grid None
                         (fun _ _ => 7%Q))) 0 0 == 0)%Q.
Proof.
  assert (Hd : valid_dir ex_glob) by (left; reflexivity).
  assert (HU : forall trc k j i,
     (TracerField (mkMem (fun _ _ _ _ => 3%Q) (fun _ _ => 1%Q) ex_grid None
                        (fun _ _ => 7%Q)) trc k j i == 3)%Q)
    by (intros; reflexivity).
  split; [exact Hd|]. split; [exact HU|].
  apply (proj2 (uniform_field_zero_flux ex_glob ex_params 0 0 ex_fresh _ 3 Hd HU));
    unfold NTRACER; lia.
Defined.

(** Reading the parameter table after a store at another label. *)
Ltac params :=
  unfold nu_dye, chi, del_u, UNIT_LENGTH, UNIT_VELOCITY, upd,
         LENGTH, U_FLOW, REYNOLDS;
  cbn [Z.eqb Pos.eqb].

(** C6: doubling [REYNOLDS] halves [nu_dye] and every flux written in
    [[beg, end]]; the written flux is the flux at [REYNOLDS = 1] times
    [1 / REYNOLDS]. *)
Theorem RHS_TRACER_Flux_reynolds glob g_inputParam beg end_ fresh m :
  let p2 := upd g_inputParam REYNOLDS (2 * g_inputParam REYNOLDS)%Q in
  (nu_dye p2 == nu_dye g_inputParam / 2)%Q /\
  (forall i trc, 0 <= trc < NTRACER -> beg <= i <= end_ ->
   (tracer_flux (RHS_TRACER_Flux glob p2 beg end_ fresh m) i trc
    == tracer_flux (RHS_TRACER_Flux glob g_inputParam beg end_ fresh m) i trc / 2)%Q) /\
  (forall r i trc, 0 <= trc < NTRACER -> beg <= i <= end_ ->
   (tracer_flux (RHS_TRACER_Flux glob (upd g_inputParam REYNOLDS r) beg end_ fresh m) i trc
    == tracer_flux (RHS_TRACER_Flux glob (upd g_inputParam REYNOLDS 1%Q) beg end_ fresh m)
         i trc * / r)%Q).
Proof.
  intros p2.
  assert (Hnu : (nu_dye p2 == nu_dye g_inputParam * / 2)%Q).
  { subst p2. params. unfold Qdiv. rewrite !Qinv_mult_distr. ring. }
  split; [exact Hnu|]. split.
  - intros i trc Ht Hi. unfold Qdiv.
    exact (RHS_flux_scale glob g_inputParam p2 beg end_ fresh m _ i trc Hnu Ht Hi).
  - intros r i trc Ht Hi. apply RHS_flux_scale; try assumption.
    params. unfold Qdiv. rewrite !Qinv_mult_distr.
    change (/ 1)%Q with 1%Q. ring.
Qed.

Lemma RHS_TRACER_Flux_reynolds_witness :
  0 <= 0 < NTRACER /\ 0 <= 0 <= 0 /\
  (tracer_flux (RHS_TRACER_Flux ex_glob (upd ex_params REYNOLDS (2 * ex_params REYNOLDS)%Q)
                  0 0 ex_fresh ex_mem) 0 0 == 0.01)%Q.
Proof.
  assert (Ht : 0 <= 0 < NTRACER) by (unfold NTRACER; lia).
  assert (Hi : 0 <= 0 <= 0) by lia.
  split; [exact Ht|]. split; [exact Hi|].
  destruct (RHS_TRACER_Flux_reynolds ex_glob ex_params 0 0 ex_fresh ex_mem)
    as [_ [H _]].
  rewrite (H 0 0 Ht Hi). vm_compute. reflexivity.
Defined.

(** C7: the call leaves the tracer field, the sweep state and the grid
    unchanged, and every [tracer_flux[i][trc]] with [i] outside
    [[beg, end]] (or [trc] not a species) keeps its value. *)
Theorem RHS_TRACER_Flux_frame glob g_inputParam beg end_ fresh m :
  let m' := RHS_TRACER_Flux glob g_inputParam beg end_ fresh m in
  TracerField m' = TracerField m /\ vn m' = vn m /\ grid m' = grid m /\
  (forall i trc, ~ (0 <= trc < NTRACER /\ beg <= i <= end_) ->
   tracer_flux m' i trc = tracer_flux m i trc).
Proof.
  intros m'. destruct (RHS_TRACER_Flux_inputs glob g_inputParam beg end_ fresh m)
    as [H1 [H2 H3]].
  split; [exact H1|]. split; [exact H2|]. split; [exact H3|].
  intros i trc H. apply RHS_flux_out. exact H.
Qed.

Lemma RHS_TRACER_Flux_frame_witness :
  ~ (0 <= 0 < NTRACER /\ 0 <= 5 <= 0) /\
  tracer_flux (RHS_TRACER_Flux ex_glob ex_params 0 0 ex_fresh ex_mem) 5 0 = 7%Q.
Proof.
  assert (H : ~ (0 <= 0 < NTRACER /\ 0 <= 5 <= 0)) by lia.
  split; [exact H|].
  destruct (RHS_TRACER_Flux_frame ex_glob ex_params 0 0 ex_fresh ex_mem)
    as [_ [_ [_ Hf]]].
  exact (Hf 5 0 H).
Defined.

(** [ex_mem] with density 3 at cell 1. *)
Definition ex_mem_dense : Mem :=
  mkMem (TracerField ex_mem) (fun n _ => if n =? 1 then 3%Q else 1%Q) ex_grid
        None (tracer_flux ex_mem).

(** C8 refuted: with [beg = end = 0] the half-open range [[0, 0)] is empty,
    yet the call writes [tracer_flux[0][0]] (the sentinel 7 becomes 0.02),
    and it reads the sweep state at index 1: changing only the density of
    cell 1 changes the flux written at cell 0. *)
Lemma RHS_TRACER_Flux_range_counterexample :
  ~ (tracer_flux (RHS_TRACER_Flux ex_glob ex_params 0 0 ex_fresh ex_mem) 0 0
     == tracer_flux ex_mem 0 0)%Q /\
  ~ (tracer_flux (RHS_TRACER_Flux ex_glob ex_params 0 0 ex_fresh ex_mem) 0 0
     == tracer_flux (RHS_TRACER_Flux ex_glob ex_params 0 0 ex_fresh ex_mem_dense) 0 0)%Q.
Proof. split; vm_compute; discriminate. Qed.

(** C8 (as amended): the call writes [tracer_flux] and the gradient buffer
    only at cells of the inclusive range [[beg, end]]; every cell of that
    range, [end] included, is written, with the value computed from the
    inputs (not the previous content); and the flux it writes depends on
    the sweep state and on the tracer field along the sweep line only at
    indices of [[beg, end + 1]]. *)
Theorem RHS_TRACER_Flux_footprint glob g_inputParam beg end_ fresh m m2 :
  let m' := RHS_TRACER_Flux glob g_inputParam beg end_ fresh m in
  let m2' := RHS_TRACER_Flux glob g_inputParam beg end_ fresh m2 in
  (forall i trc, ~ (0 <= trc < NTRACER /\ beg <= i <= end_) ->
   tracer_flux m' i trc = tracer_flux m i trc) /\
  (forall g trc i, gradTRC m' = Some g -> ~ (beg <= i <= end_) ->
   g trc i = alloc_grad m fresh trc i) /\
  (valid_dir glob -> forall i trc, 0 <= trc < NTRACER -> beg <= i <= end_ ->
   tracer_flux m' i trc =
   (interface_value (vn m) (dx (grid m) (g_dir glob)) i RHO * nu_dye g_inputParam *
    ((sweep_line glob (TracerField m trc) (i+1)%Z - sweep_line glob (TracerField m trc) i)
     * inv_dxi (grid m) (g_dir glob) i))%Q) /\
  (valid_dir glob -> forall g i trc, gradTRC m' = Some g ->
   0 <= trc < NTRACER -> beg <= i <= end_ ->
   g trc i (g_dir glob) =
   ((sweep_line glob (TracerField m trc) (i+1)%Z - sweep_line glob (TracerField m trc) i)
    * inv_dxi (grid m) (g_dir glob) i)%Q) /\
  (valid_dir glob -> grid m2 = grid m -> gradTRC m2 = gradTRC m ->
   tracer_flux m2 = tracer_flux m ->
   (forall n nv, beg <= n <= end_ + 1 -> vn m2 n nv = vn m n nv) ->
   (forall trc n, beg <= n <= end_ + 1 ->
    sweep_line glob (TracerField m2 trc) n = sweep_line glob (TracerField m trc) n) ->
   forall i trc, tracer_flux m2' i trc = tracer_flux m' i trc).
Proof.
  intros m' m2'. split; [|split; [|split; [|split]]].
  - intros i trc H. apply RHS_flux_out. exact H.
  - intros g trc i Hg Hi. subst m'. rewrite RHS_TRACER_Flux_grad in Hg.
    injection Hg as <-. unfold grad_after.
    destruct (Z.eq_dec trc 0) as [->|Hne].
    + rewrite upd_same. apply GetTracerGradient_frame. exact Hi.
    + rewrite upd_other by exact Hne. reflexivity.
  - intros Hd i trc Ht Hi. subst m'. rewrite RHS_flux_in by assumption.
    rewrite GetTracerGradient_sweep by assumption. reflexivity.
  - intros Hd g i trc Hg Ht Hi. subst m'. rewrite RHS_TRACER_Flux_grad in Hg.
    injection Hg as <-. pose proof (species_zero _ Ht); subst trc.
    rewrite grad_after_row. apply GetTracerGradient_sweep; assumption.
  - intros Hd Hgr Hgt Hfl Hvn Hf i trc. subst m' m2'.
    destruct (Z_le_gt_dec 0 trc), (Z_lt_ge_dec trc NTRACER),
             (Z_le_gt_dec beg i), (Z_le_gt_dec i end_);
    try (rewrite !RHS_flux_out by lia; rewrite Hfl; reflexivity).
    rewrite !RHS_flux_in by lia.
    rewrite !GetTracerGradient_sweep by (assumption || lia).
    unfold interface_value, alloc_grad.
    rewrite Hgr, (Hvn i RHO), (Hvn (i+1) RHO), (Hf trc i), (Hf trc (i+1)) by lia.
    reflexivity.
Qed.

(** [ex_mem] with density 3 at cell 2. *)
Definition ex_mem_far : Mem :=
  mkMem (TracerField ex_mem) (fun n _ => if n =? 2 then 3%Q else 1%Q) ex_grid
        None (tracer_flux ex_mem).

Lemma RHS_TRACER_Flux_footprint_witness :
  valid_dir ex_glob /\ grid ex_mem_far = grid ex_mem /\
  gradTRC ex_mem_far = gradTRC ex_mem /\ tracer_flux ex_mem_far = tracer_flux ex_mem /\
  (forall n nv, 0 <= n <= 0 + 1 -> vn ex_mem_far n nv = vn ex_mem n nv) /\
  (forall trc n, 0 <= n <= 0 + 1 ->
   sweep_line ex_glob (TracerField ex_mem_far trc) n
   = sweep_line ex_glob (TracerField ex_mem trc) n) /\
  tracer_flux (RHS_TRACER_Flux ex_glob ex_params 0 0 ex_fresh ex_mem_far) 0 0
  = tracer_flux (RHS_TRACER_Flux ex_glob ex_params 0 0 ex_fresh ex_mem) 0 0 /\
  0 <= 0 < NTRACER /\ 0 <= 0 <= 0 /\
  tracer_flux ex_mem 0 0 = 7%Q /\
  (tracer_flux (RHS_TRACER_Flux ex_glob ex_params 0 0 ex_fresh ex_mem) 0 0 == 0.02)%Q.
Proof.
  assert (Hd : valid_dir ex_glob) by (left; reflexivity).
  assert (Hvn : forall n nv, 0 <= n <= 0 + 1 -> vn ex_mem_far n nv = vn ex_mem n nv).
  { intros n nv Hn. cbn [vn ex_mem_far ex_mem].
    destruct (Z.eqb_spec n 2); [lia|reflexivity]. }
  assert (Hf : forall trc n, 0 <= n <= 0 + 1 ->
     sweep_line ex_glob (TracerField ex_mem_far trc) n
     = sweep_line ex_glob (TracerField ex_mem trc) n) by reflexivity.
  split; [exact Hd|]. split; [reflexivity|]. split; [reflexivity|].
  split; [reflexivity|]. split; [exact Hvn|]. split; [exact Hf|].
  assert (Ht : 0 <= 0 < NTRACER) by (unfold NTRACER; lia).
  assert (Hi : 0 <= 0 <= 0) by lia.
  destruct (RHS_TRACER_Flux_footprint ex_glob ex_params 0 0 ex_fresh ex_mem ex_mem_far)
    as [_ [_ [Hw [_ H]]]].
  split; [exact (H Hd eq_refl eq_refl eq_refl Hvn Hf 0 0)|].
  split; [exact Ht|]. split; [exact Hi|]. split; [reflexivity|].
  rewrite (Hw Hd 0 0 Ht Hi). vm_compute. reflexivity.
Defined.

(** [m] with the gradient buffer replaced by [g]. *)
Definition with_grad (m : Mem) (g : option GradBuf) : Mem :=
  {| TracerField := TracerField m; vn := vn m; grid := grid m;
     gradTRC := g; tracer_flux := tracer_flux m |}.

(** C9: for a sweep along one of the three directions, the flux array after
    the call does not depend on the gradient buffer left by earlier calls
    (nor on the content of a freshly allocated one): the entries it reads
    are written first in the same call. *)
Theorem RHS_TRACER_Flux_buffer_independent glob g_inputParam beg end_ m g1 g2
    fresh1 fresh2 :
  valid_dir glob ->
  forall i trc,
  tracer_flux (RHS_TRACER_Flux glob g_inputParam beg end_ fresh1 (with_grad m g1)) i trc
  = tracer_flux (RHS_TRACER_Flux glob g_inputParam beg end_ fresh2 (with_grad m g2)) i trc.
Proof.
  intros Hd i trc.
  destruct (Z_le_gt_dec 0 trc), (Z_lt_ge_dec trc NTRACER),
           (Z_le_gt_dec beg i), (Z_le_gt_dec i end_);
  try (rewrite !RHS_flux_out by lia; reflexivity).
  rewrite !RHS_flux_in by lia.
  rewrite !GetTracerGradient_sweep by (assumption || lia).
  reflexivity.
Qed.

Lemma RHS_TRACER_Flux_buffer_independent_witness :
  valid_dir ex_glob /\
  tracer_flux (RHS_TRACER_Flux ex_glob ex_params 0 0 ex_fresh
                 (with_grad ex_mem (Some (fun _ _ _ => 9%Q)))) 0 0
  = tracer_flux (RHS_TRACER_Flux ex_glob ex_params 0 0 (fun _ _ _ => 0%Q)
                   (with_grad ex_mem None)) 0 0.
Proof.
  assert (Hd : valid_dir ex_glob) by (left; reflexivity).
  split; [exact Hd|].
  exact (RHS_TRACER_Flux_buffer_independent ex_glob ex_params 0 0 ex_mem _ _ _ _ Hd 0 0).
Defined.

(** With [UNIT_LENGTH = LENGTH] and [UNIT_VELOCITY = U_FLOW] nonzero,
    [nu_dye = 2 / REYNOLDS]. *)
Lemma nu_dye_two p :
  ~ (p LENGTH == 0)%Q -> ~ (p U_FLOW == 0)%Q ->
  (nu_dye p == 2 / p REYNOLDS)%Q.
Proof.
  intros HL HU. unfold nu_dye, chi, del_u, UNIT_LENGTH, UNIT_VELOCITY, Qdiv.
  rewrite Qinv_mult_distr.
  transitivity ((p LENGTH * / p LENGTH) * (p U_FLOW * / p U_FLOW) * (2 * / p REYNOLDS))%Q.
  - ring.
  - rewrite !Qmult_inv_r by assumption. ring.
Qed.

(** C10: with nonzero [LENGTH] and [U_FLOW], [nu_dye = 2 / REYNOLDS], and
    the flux written by the call is the same for any other nonzero values
    of [LENGTH] and [U_FLOW]. *)
Theorem RHS_TRACER_Flux_units glob g_inputParam beg end_ fresh m L' U' :
  ~ (g_inputParam LENGTH == 0)%Q -> ~ (g_inputParam U_FLOW == 0)%Q ->
  ~ (L' == 0)%Q -> ~ (U' == 0)%Q ->
  let p' := upd (upd g_inputParam LENGTH L') U_FLOW U' in
  (nu_dye g_inputParam == 2 / g_inputParam REYNOLDS)%Q /\
  (forall i trc,
   tracer_flux (RHS_TRACER_Flux glob p' beg end_ fresh m) i trc
   == tracer_flux (RHS_TRACER_Flux glob g_inputParam beg end_ fresh m) i trc)%Q.
Proof.
  intros HL HU HL' HU' p'.
  assert (H1 : (nu_dye g_inputParam == 2 / g_inputParam REYNOLDS)%Q)
    by (apply nu_dye_two; assumption).
  split; [exact H1|].
  intros i trc. apply RHS_flux_same_nu.
  rewrite H1, nu_dye_two; subst p'; unfold upd, LENGTH, U_FLOW, REYNOLDS;
    cbn [Z.eqb Pos.eqb]; try assumption; reflexivity.
Qed.

Lemma RHS_TRACER_Flux_units_witness :
  ~ (ex_params LENGTH == 0)%Q /\ ~ (ex_params U_FLOW == 0)%Q /\
  ~ (3 == 0)%Q /\ ~ (5 == 0)%Q /\
  (tracer_flux (RHS_TRACER_Flux ex_glob (upd (upd ex_params LENGTH 3%Q) U_FLOW 5%Q)
                  0 0 ex_fresh ex_mem) 0 0 == 0.02)%Q.
Proof.
  assert (H1 : ~ (ex_params LENGTH == 0)%Q) by (vm_compute; discriminate).
  assert (H2 : ~ (ex_params U_FLOW == 0)%Q) by (vm_compute; discriminate).
  assert (H3 : ~ (3 == 0)%Q) by (vm_compute; discriminate).
  assert (H4 : ~ (5 == 0)%Q) by (vm_compute; discriminate).
  split; [exact H1|]. split; [exact H2|]. split; [exact H3|]. split; [exact H4|].
  destruct (RHS_TRACER_Flux_units ex_glob ex_params 0 0 ex_fresh ex_mem 3 5 H1 H2 H3 H4)
    as [_ H].
  rewrite (H 0 0). vm_compute. reflexivity.
Defined.

(** * Further properties of the kernel *)

(** [m] with the sweep state replaced by [v]. *)
Definition with_vn (m : Mem) (v : Z -> Z -> Q) : Mem :=
  {| TracerField := TracerField m; vn := v; grid := grid m;
     gradTRC := gradTRC m; tracer_flux := tracer_flux m |}.

(** [m] with the tracer field replaced by [F]. *)
Definition with_tracer (m : Mem) (F : Z -> Field3) : Mem :=
  {| TracerField := F; vn := vn m; grid := grid m;
     gradTRC := gradTRC m; tracer_flux := tracer_flux m |}.

(** With positive cell widths, the interface value of line 71 lies between
    the values of the two adjacent cells. *)
Theorem interface_value_between vc dxd i nv :
  (0 < dxd i)%Q -> (0 < dxd (i+1)%Z)%Q ->
  (Qmin (vc i nv) (vc (i+1)%Z nv) <= interface_value vc dxd i nv
   <= Qmax (vc i nv) (vc (i+1)%Z nv))%Q.
Proof.
  intros H1 H2. unfold interface_value.
  revert H1 H2.
  generalize (vc i nv) (vc (i+1)%Z nv) (dxd i) (dxd (i+1)%Z).
  intros a b w w' H1 H2.
  assert (Hw : (0 < w + w')%Q) by lra.
  split.
  - apply Qle_shift_div_l; [exact Hw|].
    destruct (Qlt_le_dec a b) as [Hab|Hab].
    + rewrite Q.min_l by lra. nra.
    + rewrite Q.min_r by lra. nra.
  - apply Qle_shift_div_r; [exact Hw|].
    destruct (Qlt_le_dec a b) as [Hab|Hab].
    + rewrite Q.max_r by lra. nra.
    + rewrite Q.max_l by lra. nra.
Qed.

Lemma interface_value_between_witness :
  (0 < 1)%Q /\ (0 < 3)%Q /\
  (Qmin 2 6 <= interface_value (fun n _ => if n =? 0 then 2%Q else 6%Q)
                  (fun n => if n =? 0 then 1%Q else 3%Q) 0 0 <= Qmax 2 6)%Q.
Proof.
  assert (H1 : (0 < 1)%Q) by lra. assert (H2 : (0 < 3)%Q) by lra.
  split; [exact H1|]. split; [exact H2|].
  exact (interface_value_between (fun n _ => if n =? 0 then 2%Q else 6%Q)
           (fun n => if n =? 0 then 1%Q else 3%Q) 0 0 H1 H2).
Defined.

(** Of the sweep state, the flux reads the density only: changing every
    other primitive variable changes nothing in the flux array. *)
Theorem RHS_TRACER_Flux_reads_density_only glob g_inputParam beg end_ fresh m v :
  (forall n, v n RHO = vn m n RHO) ->
  forall i trc,
  tracer_flux (RHS_TRACER_Flux glob g_inputParam beg end_ fresh (with_vn m v)) i trc
  = tracer_flux (RHS_TRACER_Flux glob g_inputParam beg end_ fresh m) i trc.
Proof.
  intros Hv i trc.
  destruct (Z_le_gt_dec 0 trc), (Z_lt_ge_dec trc NTRACER),
           (Z_le_gt_dec beg i), (Z_le_gt_dec i end_);
  try (rewrite !RHS_flux_out by lia; reflexivity).
  rewrite !RHS_flux_in by lia. cbn [vn with_vn grid TracerField].
  unfold interface_value. rewrite !Hv. reflexivity.
Qed.

Lemma RHS_TRACER_Flux_reads_density_only_witness :
  (forall n, (fun n nv => if nv =? RHO then 1%Q else inject_Z n) n RHO = vn ex_mem n RHO) /\
  tracer_flux (RHS_TRACER_Flux ex_glob ex_params 0 0 ex_fresh
     (with_vn ex_mem (fun n nv => if nv =? RHO then 1%Q else inject_Z n))) 0 0
  = tracer_flux (RHS_TRACER_Flux ex_glob ex_params 0 0 ex_fresh ex_mem) 0 0.
Proof.
  assert (Hv : forall n, (fun n nv => if nv =? RHO then 1%Q else inject_Z n) n RHO
                         = vn ex_mem n RHO) by reflexivity.
  split; [exact Hv|].
  exact (RHS_TRACER_Flux_reads_density_only ex_glob ex_params 0 0 ex_fresh ex_mem _ Hv 0 0).
Defined.

(** Of the parameter table, the call reads [LENGTH], [U_FLOW] and
    [REYNOLDS] only. *)
Theorem RHS_TRACER_Flux_params_used glob p p' beg end_ fresh m :
  p' LENGTH = p LENGTH -> p' U_FLOW = p U_FLOW -> p' REYNOLDS = p REYNOLDS ->
  RHS_TRACER_Flux glob p' beg end_ fresh m = RHS_TRACER_Flux glob p beg end_ fresh m.
Proof.
  intros HL HU HR. unfold RHS_TRACER_Flux.
  replace (nu_dye p') with (nu_dye p)
    by (unfold nu_dye, chi, del_u, UNIT_LENGTH, UNIT_VELOCITY; congruence).
  reflexivity.
Qed.

Lemma RHS_TRACER_Flux_params_used_witness :
  upd ex_params AMP 5%Q LENGTH = ex_params LENGTH /\
  upd ex_params AMP 5%Q U_FLOW = ex_params U_FLOW /\
  upd ex_params AMP 5%Q REYNOLDS = ex_params REYNOLDS /\
  RHS_TRACER_Flux ex_glob (upd ex_params AMP 5%Q) 0 0 ex_fresh ex_mem
  = RHS_TRACER_Flux ex_glob ex_params 0 0 ex_fresh ex_mem.
Proof.
  assert (H1 : upd ex_params AMP 5%Q LENGTH = ex_params LENGTH) by reflexivity.
  assert (H2 : upd ex_params AMP 5%Q U_FLOW = ex_params U_FLOW) by reflexivity.
  assert (H3 : upd ex_params AMP 5%Q REYNOLDS = ex_params REYNOLDS) by reflexivity.
  split; [exact H1|]. split; [exact H2|]. split; [exact H3|].
  exact (RHS_TRACER_Flux_params_used ex_glob ex_params _ 0 0 ex_fresh ex_mem H1 H2 H3).
Defined.

(** For a value of [g_dir] that is none of the three directions, the
    gradient routine writes nothing. *)
Lemma GetTracerGradient_no_dir glob Field gradField beg end_ grid :
  ~ valid_dir glob ->
  GetTracerGradient glob Field gradField beg end_ grid = gradField.
Proof.
  intros Hd. unfold valid_dir in Hd. unfold GetTracerGradient.
  destruct (Z.eqb_spec (g_dir glob) IDIR); [tauto|].
  destruct (Z.eqb_spec (g_dir glob) JDIR); [tauto|].
  destruct (Z.eqb_spec (g_dir glob) KDIR); [tauto|].
  reflexivity.
Qed.

(** The IDIR and JDIR components, written in every branch, are linear in
    the field: the gradient of [a F + b G] is [a] times that of [F] plus [b]
    times that of [G]. *)
Theorem GetTracerGradient_linear glob F G a b gradField beg end_ grid n c :
  valid_dir glob -> beg <= n <= end_ -> (c = IDIR \/ c = JDIR) ->
  (GetTracerGradient glob (fun k j i => a * F k j i + b * G k j i)%Q
     gradField beg end_ grid n c
   == a * GetTracerGradient glob F gradField beg end_ grid n c
      + b * GetTracerGradient glob G gradField beg end_ grid n c)%Q.
Proof.
  intros [Hd|[Hd|Hd]] Hn [-> | ->].
  all: first [ rewrite !(GetTracerGradient_IDIR _ _ _ _ _ _ _ Hd Hn)
             | rewrite !(GetTracerGradient_JDIR _ _ _ _ _ _ _ Hd Hn)
             | rewrite !(GetTracerGradient_KDIR _ _ _ _ _ _ _ Hd Hn) ].
  all: comp; cbv beta; ring.
Qed.

Lemma GetTracerGradient_linear_witness :
  valid_dir ex_glob /\ 0 <= 0 <= 0 /\ (IDIR = IDIR \/ IDIR = JDIR) /\
  (GetTracerGradient ex_glob
     (fun k j i => 2 * TracerField ex_mem 0%Z k j i + 3 * ex_affine k j i)%Q
     (ex_fresh 0%Z) 0 0 ex_grid 0%Z IDIR
   == 2 * GetTracerGradient ex_glob (TracerField ex_mem 0%Z) (ex_fresh 0%Z) 0 0 ex_grid 0%Z IDIR
      + 3 * GetTracerGradient ex_glob ex_affine (ex_fresh 0%Z) 0 0 ex_grid 0%Z IDIR)%Q.
Proof.
  assert (Hd : valid_dir ex_glob) by (left; reflexivity).
  assert (Hn : 0 <= 0 <= 0) by lia.
  assert (Hc : IDIR = IDIR \/ IDIR = JDIR) by (left; reflexivity).
  split; [exact Hd|]. split; [exact Hn|]. split; [exact Hc|].
  exact (GetTracerGradient_linear ex_glob _ _ 2 3 (ex_fresh 0%Z) 0 0 ex_grid 0 IDIR Hd Hn Hc).
Defined.

(** Adding a constant to the tracer field leaves the flux array unchanged. *)
Theorem RHS_TRACER_Flux_shift glob g_inputParam beg end_ fresh m c :
  valid_dir glob ->
  forall i trc,
  (tracer_flux (RHS_TRACER_Flux glob g_inputParam beg end_ fresh
     (with_tracer m (fun trc k j i => TracerField m trc k j i + c)%Q)) i trc
   == tracer_flux (RHS_TRACER_Flux glob g_inputParam beg end_ fresh m) i trc)%Q.
Proof.
  intros Hd i trc.
  destruct (Z_le_gt_dec 0 trc), (Z_lt_ge_dec trc NTRACER),
           (Z_le_gt_dec beg i), (Z_le_gt_dec i end_);
  try (rewrite !RHS_flux_out by lia; reflexivity).
  rewrite !RHS_flux_in by lia.
  rewrite !GetTracerGradient_sweep by (assumption || lia).
  cbn [with_tracer TracerField vn grid]. unfold sweep_line.
  destruct (g_dir glob =? IDIR); [|destruct (g_dir glob =? JDIR)]; ring.
Qed.

Lemma RHS_TRACER_Flux_shift_witness :
  valid_dir ex_glob /\
  (tracer_flux (RHS_TRACER_Flux ex_glob ex_params 0 0 ex_fresh
     (with_tracer ex_mem (fun trc k j i => TracerField ex_mem trc k j i + 10)%Q)) 0 0
   == tracer_flux (RHS_TRACER_Flux ex_glob ex_params 0 0 ex_fresh ex_mem) 0 0)%Q.
Proof.
  assert (Hd : valid_dir ex_glob) by (left; reflexivity).
  split; [exact Hd|].
  exact (RHS_TRACER_Flux_shift ex_glob ex_params 0 0 ex_fresh ex_mem 10 Hd 0 0).
Defined.

(** An empty range ([end < beg]) changes no flux entry and no buffer
    entry; the call only allocates the buffer. *)
Theorem RHS_TRACER_Flux_empty_range glob g_inputParam beg end_ fresh m :
  end_ < beg ->
  let m' := RHS_TRACER_Flux glob g_inputParam beg end_ fresh m in
  (forall i trc, tracer_flux m' i trc = tracer_flux m i trc) /\
  gradTRC m' <> None /\
  (forall g trc i, gradTRC m' = Some g -> g trc i = alloc_grad m fresh trc i).
Proof.
  intros Hr m'. split; [|split].
  - intros i trc. apply RHS_flux_out. lia.
  - subst m'. rewrite RHS_TRACER_Flux_grad. discriminate.
  - intros g trc i Hg. subst m'. rewrite RHS_TRACER_Flux_grad in Hg.
    injection Hg as <-. unfold grad_after.
    destruct (Z.eq_dec trc 0) as [->|Hne].
    + rewrite upd_same. apply GetTracerGradient_frame. lia.
    + rewrite upd_other by exact Hne. reflexivity.
Qed.

Lemma RHS_TRACER_Flux_empty_range_witness :
  1 < 2 /\
  tracer_flux (RHS_TRACER_Flux ex_glob ex_params 2 1 ex_fresh ex_mem) 1 0 = 7%Q.
Proof.
  assert (Hr : 1 < 2) by lia. split; [exact Hr|].
  exact (proj1 (RHS_TRACER_Flux_empty_range ex_glob ex_params 2 1 ex_fresh ex_mem Hr) 1 0).
Defined.

(** Running the gradient routine on its own output changes nothing. *)
Lemma GetTracerGradient_idem glob Field gradField beg end_ grid n c :
  GetTracerGradient glob Field
    (GetTracerGradient glob Field gradField beg end_ grid) beg end_ grid n c
  = GetTracerGradient glob Field gradField beg end_ grid n c.
Proof.
  destruct (Z_le_gt_dec beg n), (Z_le_gt_dec n end_);
    try (rewrite !GetTracerGradient_frame by lia; reflexivity).
  assert (Hn : beg <= n <= end_) by lia.
  destruct (Z.eq_dec (g_dir glob) IDIR) as [Hd|H1];
    [rewrite !(GetTracerGradient_IDIR _ _ _ _ _ _ _ Hd Hn)|].
  { unfold upd. destruct (c =? 1), (c =? 0); reflexivity. }
  destruct (Z.eq_dec (g_dir glob) JDIR) as [Hd|H2];
    [rewrite !(GetTracerGradient_JDIR _ _ _ _ _ _ _ Hd Hn)|].
  { unfold upd. destruct (c =? 1), (c =? 0); reflexivity. }
  destruct (Z.eq_dec (g_dir glob) KDIR) as [Hd|H3];
    [rewrite !(GetTracerGradient_KDIR _ _ _ _ _ _ _ Hd Hn)|].
  { unfold upd. destruct (c =? 2), (c =? 1), (c =? 0); reflexivity. }
  assert (Hv : ~ valid_dir glob) by (unfold valid_dir; tauto).
  rewrite !GetTracerGradient_no_dir by exact Hv. reflexivity.
Qed.

(** Repeating a call with the same inputs leaves the flux array and the
    gradient buffer as the first call left them. *)
Theorem RHS_TRACER_Flux_idempotent glob g_inputParam beg end_ fresh fresh' m :
  let m1 := RHS_TRACER_Flux glob g_inputParam beg end_ fresh m in
  let m2 := RHS_TRACER_Flux glob g_inputParam beg end_ fresh' m1 in
  (forall i trc, tracer_flux m2 i trc = tracer_flux m1 i trc) /\
  (forall g1 g2 trc i c, gradTRC m1 = Some g1 -> gradTRC m2 = Some g2 ->
   g2 trc i c = g1 trc i c).
Proof.
  intros m1 m2.
  destruct (RHS_TRACER_Flux_inputs glob g_inputParam beg end_ fresh m) as [E1 [E2 E3]].
  fold m1 in E1, E2, E3.
  assert (Ha : alloc_grad m1 fresh' = grad_after glob beg end_ fresh m)
    by (unfold alloc_grad; subst m1; rewrite RHS_TRACER_Flux_grad; reflexivity).
  split.
  - intros i trc. subst m2.
    destruct (Z_le_gt_dec 0 trc), (Z_lt_ge_dec trc NTRACER),
             (Z_le_gt_dec beg i), (Z_le_gt_dec i end_);
    try (rewrite !RHS_flux_out by lia; reflexivity).
    assert (Ht : 0 <= trc < NTRACER) by lia.
    rewrite (RHS_flux_in _ _ _ _ _ m1) by lia. subst m1.
    rewrite (RHS_flux_in _ _ _ _ _ m) by lia.
    rewrite Ha, E1, E2, E3. pose proof (species_zero _ Ht); subst trc.
    rewrite grad_after_row, GetTracerGradient_idem. reflexivity.
  - intros g1 g2 trc i c H1 H2. subst m2.
    rewrite RHS_TRACER_Flux_grad in H2. injection H2 as <-.
    assert (Hg1 : g1 = grad_after glob beg end_ fresh m)
      by (subst m1; rewrite RHS_TRACER_Flux_grad in H1; injection H1 as <-; reflexivity).
    unfold grad_after at 1. rewrite Ha, E1, E3, Hg1.
    destruct (Z.eq_dec trc 0) as [->|Hne].
    + rewrite upd_same, grad_after_row, GetTracerGradient_idem. reflexivity.
    + rewrite upd_other by exact Hne. reflexivity.
Qed.

Lemma RHS_TRACER_Flux_idempotent_witness :
  let m1 := RHS_TRACER_Flux ex_glob ex_params 0 3 ex_fresh ex_mem in
  let m2 := RHS_TRACER_Flux ex_glob ex_params 0 3 (fun _ _ _ => 0%Q) m1 in
  gradTRC m1 = Some (grad_after ex_glob 0 3 ex_fresh ex_mem) /\
  gradTRC m2 = Some (grad_after ex_glob 0 3 (fun _ _ _ => 0%Q) m1) /\
  tracer_flux m2 2 0 = tracer_flux m1 2 0 /\
  grad_after ex_glob 0 3 (fun _ _ _ => 0%Q) m1 0 2 0
  = grad_after ex_glob 0 3 ex_fresh ex_mem 0 2 0.
Proof.
  intros m1 m2.
  assert (H1 : gradTRC m1 = Some (grad_after ex_glob 0 3 ex_fresh ex_mem)) by reflexivity.
  assert (H2 : gradTRC m2 = Some (grad_after ex_glob 0 3 (fun _ _ _ => 0%Q) m1))
    by reflexivity.
  destruct (RHS_TRACER_Flux_idempotent ex_glob ex_params 0 3 ex_fresh
              (fun _ _ _ => 0%Q) ex_mem) as [Hf Hg].
  split; [exact H1|]. split; [exact H2|]. split; [exact (Hf 2 0)|].
  exact (Hg _ _ 0 2 0 H1 H2).
Defined.

Lemma interface_value_pos vc dxd i nv :
  (0 < dxd i)%Q -> (0 < dxd (i+1)%Z)%Q ->
  (0 < vc i nv)%Q -> (0 < vc (i+1)%Z nv)%Q ->
  (0 < interface_value vc dxd i nv)%Q.
Proof.
  intros H1 H2 H3 H4. unfold interface_value. revert H1 H2 H3 H4.
  generalize (vc i nv) (vc (i+1)%Z nv) (dxd i) (dxd (i+1)%Z).
  intros a b w w' H1 H2 H3 H4.
  apply Qlt_shift_div_l; [lra|]. nra.
Qed.

(** With positive parameters, cell widths, densities and inverse centre
    spacing, the flux written at a cell is a positive multiple of the
    forward difference of the tracer along the sweep: it has the sign of
    that difference. *)
Theorem RHS_TRACER_Flux_sign glob g_inputParam beg end_ fresh m i trc :
  valid_dir glob -> 0 <= trc < NTRACER -> beg <= i <= end_ ->
  (0 < g_inputParam LENGTH)%Q -> (0 < g_inputParam U_FLOW)%Q ->
  (0 < g_inputParam REYNOLDS)%Q ->
  (0 < dx (grid m) (g_dir glob) i)%Q -> (0 < dx (grid m) (g_dir glob) (i+1)%Z)%Q ->
  (0 < vn m i RHO)%Q -> (0 < vn m (i+1)%Z RHO)%Q ->
  (0 < inv_dxi (grid m) (g_dir glob) i)%Q ->
  exists K, (0 < K)%Q /\
  (tracer_flux (RHS_TRACER_Flux glob g_inputParam beg end_ fresh m) i trc
   == K * (sweep_line glob (TracerField m trc) (i+1)%Z
           - sweep_line glob (TracerField m trc) i))%Q.
Proof.
  intros Hd Ht Hi HL HU HR Hw1 Hw2 Hr1 Hr2 Hs.
  rewrite RHS_flux_in by assumption.
  rewrite GetTracerGradient_sweep by assumption.
  exists (interface_value (vn m) (dx (grid m) (g_dir glob)) i RHO
          * nu_dye g_inputParam * inv_dxi (grid m) (g_dir glob) i)%Q.
  split; [|ring].
  assert (Hnu : (0 < nu_dye g_inputParam)%Q).
  { rewrite nu_dye_two by (intros E; rewrite E in *; exact (Qlt_irrefl 0 ltac:(assumption))).
    unfold Qdiv. apply Qmult_lt_0_compat; [lra|]. apply Qinv_lt_0_compat. exact HR. }
  apply Qmult_lt_0_compat; [|exact Hs].
  apply Qmult_lt_0_compat; [|exact Hnu].
  apply interface_value_pos; assumption.
Qed.

Lemma RHS_TRACER_Flux_sign_witness :
  valid_dir ex_glob /\ 0 <= 0 < NTRACER /\ 0 <= 0 <= 0 /\
  (0 < ex_params LENGTH)%Q /\ (0 < ex_params U_FLOW)%Q /\ (0 < ex_params REYNOLDS)%Q /\
  (0 < dx (grid ex_mem) (g_dir ex_glob) 0)%Q /\
  (0 < dx (grid ex_mem) (g_dir ex_glob) (0+1)%Z)%Q /\
  (0 < vn ex_mem 0 RHO)%Q /\ (0 < vn ex_mem (0+1)%Z RHO)%Q /\
  (0 < inv_dxi (grid ex_mem) (g_dir ex_glob) 0)%Q /\
  exists K, (0 < K)%Q /\
  (tracer_flux (RHS_TRACER_Flux ex_glob ex_params 0 0 ex_fresh ex_mem) 0 0
   == K * (sweep_line ex_glob (TracerField ex_mem 0%Z) (0+1)%Z
           - sweep_line ex_glob (TracerField ex_mem 0%Z) 0%Z))%Q.
Proof.
  assert (Hd : valid_dir ex_glob) by (left; reflexivity).
  assert (Ht : 0 <= 0 < NTRACER) by (unfold NTRACER; lia).
  assert (Hi : 0 <= 0 <= 0) by lia.
  assert (H1 : (0 < ex_params LENGTH)%Q) by (vm_compute; reflexivity).
  assert (H2 : (0 < ex_params U_FLOW)%Q) by (vm_compute; reflexivity).
  assert (H3 : (0 < ex_params REYNOLDS)%Q) by (vm_compute; reflexivity).
  assert (H4 : (0 < dx (grid ex_mem) (g_dir ex_glob) 0)%Q) by (vm_compute; reflexivity).
  assert (H5 : (0 < dx (grid ex_mem) (g_dir ex_glob) (0+1)%Z)%Q) by (vm_compute; reflexivity).
  assert (H6 : (0 < vn ex_mem 0 RHO)%Q) by (vm_compute; reflexivity).
  assert (H7 : (0 < vn ex_mem (0+1)%Z RHO)%Q) by (vm_compute; reflexivity).
  assert (H8 : (0 < inv_dxi (grid ex_mem) (g_dir ex_glob) 0)%Q) by (vm_compute; reflexivity).
  repeat (split; [assumption|]).
  exact (RHS_TRACER_Flux_sign ex_glob ex_params 0 0 ex_fresh ex_mem 0 0
           Hd Ht Hi H1 H2 H3 H4 H5 H6 H7 H8).
Defined.

(** On a grid with uniform spacing [h] across the sweep, the transverse
    component written for a field affine in the transverse coordinate,
    [a + b y], is [b]: the JDIR component of an IDIR sweep and the IDIR
    component of a JDIR sweep. *)
Theorem GetTracerGradient_transverse_uniform glob Field gradField beg end_ grid
    n a b h d :
  beg <= n <= end_ -> ~ (h == 0)%Q ->
  (g_dir glob = IDIR /\ d = JDIR) \/ (g_dir glob = JDIR /\ d = IDIR) ->
  (forall l, x grid d (l+1)%Z - x grid d l == h)%Q ->
  (forall l, inv_dx grid d l == / h)%Q ->
  (forall k j i, Field k j i == a + b * x grid d (if d =? IDIR then i else j))%Q ->
  (GetTracerGradient glob Field gradField beg end_ grid n d == b)%Q.
Proof.
  intros Hn Hh [[Hd ->]|[Hd ->]] Hx Hinv HF.
  - rewrite (GetTracerGradient_IDIR _ _ _ _ _ _ _ Hd Hn). comp.
    rewrite !HF. cbn [Z.eqb Pos.eqb]. rewrite Hinv.
    set (j := g_j glob).
    assert (E1 : (x grid 1 (j+1)%Z == x grid 1 j + h)%Q)
      by (specialize (Hx j); lra).
    assert (E2 : (x grid 1 (j-1)%Z == x grid 1 j - h)%Q).
    { specialize (Hx (j-1)). replace (j - 1 + 1) with j in Hx by lia. lra. }
    rewrite E1, E2. field. exact Hh.
  - rewrite (GetTracerGradient_JDIR _ _ _ _ _ _ _ Hd Hn). comp.
    rewrite !HF. cbn [Z.eqb Pos.eqb]. rewrite Hinv.
    set (i := g_i glob).
    assert (E1 : (x grid 0 (i+1)%Z == x grid 0 i + h)%Q)
      by (specialize (Hx i); lra).
    assert (E2 : (x grid 0 (i-1)%Z == x grid 0 i - h)%Q).
    { specialize (Hx (i-1)). replace (i - 1 + 1) with i in Hx by lia. lra. }
    rewrite E1, E2. field. exact Hh.
Qed.

(** A field affine along [JDIR]: [1 + 7 y] on the example grid. *)
Definition ex_affine_y : Field3 := fun _ j _ => (1 + 7 * (0.01 * inject_Z j))%Q.

Lemma GetTracerGradient_transverse_uniform_witness :
  0 <= 0 <= 0 /\ ~ (0.01 == 0)%Q /\
  ((g_dir ex_glob = IDIR /\ JDIR = JDIR) \/ (g_dir ex_glob = JDIR /\ JDIR = IDIR)) /\
  (forall l, x ex_grid JDIR (l+1)%Z - x ex_grid JDIR l == 0.01)%Q /\
  (forall l, inv_dx ex_grid JDIR l == / 0.01)%Q /\
  (forall k j i, ex_affine_y k j i
                 == 1 + 7 * x ex_grid JDIR (if JDIR =? IDIR then i else j))%Q /\
  (GetTracerGradient ex_glob ex_affine_y (ex_fresh 0%Z) 0 0 ex_grid 0%Z JDIR == 7)%Q.
Proof.
  assert (Hn : 0 <= 0 <= 0) by lia.
  assert (Hh : ~ (0.01 == 0)%Q) by (vm_compute; discriminate).
  assert (Hd : (g_dir ex_glob = IDIR /\ JDIR = JDIR) \/ (g_dir ex_glob = JDIR /\ JDIR = IDIR))
    by (left; split; reflexivity).
  assert (Hx : forall l, (x ex_grid JDIR (l+1)%Z - x ex_grid JDIR l == 0.01)%Q).
  { intros l. cbn [x ex_grid]. rewrite inject_Z_plus. ring_simplify. reflexivity. }
  assert (Hinv : forall l, (inv_dx ex_grid JDIR l == / 0.01)%Q)
    by (intros l; vm_compute; reflexivity).
  assert (HF : forall k j i, (ex_affine_y k j i
                 == 1 + 7 * x ex_grid JDIR (if JDIR =? IDIR then i else j))%Q)
    by (intros; reflexivity).
  split; [exact Hn|]. split; [exact Hh|]. split; [exact Hd|].
  split; [exact Hx|]. split; [exact Hinv|]. split; [exact HF|].
  exact (GetTracerGradient_transverse_uniform ex_glob ex_affine_y (ex_fresh 0%Z) 0 0 ex_grid
           0 1 7 0.01 JDIR Hn Hh Hd Hx Hinv HF).
Defined.
